(** * noodles / examples / boil : the terminal renderers of [render.cc]

    A shallow embedding of [src/examples/boil/src/render.cc]: the predicate
    renderer [render], the colour mapper [colour_map] and the gradient
    renderer [render_colour], followed by the properties the specification
    states about them.

    Modelling choices.
    - A C++ [double] is an IEEE-754 binary64 value: Rocq's primitive [float],
      every operation rounded to nearest-even, exactly as the expression is
      written in the source (no fused multiply-add, no excess precision);
      there is one NaN.
    - [complex], [predicate] and [unit_map] come from [types.hh], which is not
      part of the sources at hand: a complex number is a pair of doubles with
      component-wise addition, the two callables are pure functions.
    - [pow] is the C library's; it is a parameter of [colour_map].
    - [std::cout] is a stream of characters that only grows.  Besides it the
      world records the points handed to the caller's function, in order, so
      that the sampling order can be stated.
    - Converting a double to [int] is defined by C++ only when the truncated
      value fits the (32-bit) [int]; otherwise the language leaves the result
      open.  The embedding keeps the defined part exact and takes the integer
      an implementation produces elsewhere as a parameter about which nothing
      is assumed (an implementation that traps there is outside the model). *)

From Stdlib Require Import ZArith List String Ascii Bool Lia.
From Stdlib Require Import Floats Uint63 DecimalString DecimalPos DecimalZ.
Import ListNotations.

Set Warnings "-inexact-float".

(* ------------------------------------------------------------------ *)
(** ** Numbers *)

Definition double : Type := float.

(** [unsigned -> double], as in [i * scale_real]: exact below 2^53. *)
Definition unsigned_to_double (n : nat) : double :=
  PrimFloat.of_uint63 (Uint63.of_Z (Z.of_nat n)).

(** [int -> double], as in [(b.real() - a.real()) / width]. *)
Definition int_to_double (z : Z) : double :=
  if (z <? 0)%Z
  then PrimFloat.opp (PrimFloat.of_uint63 (Uint63.of_Z (- z)))
  else PrimFloat.of_uint63 (Uint63.of_Z z).

Definition INT_MIN : Z := (- 2 ^ 31)%Z.
Definition INT_MAX : Z := (2 ^ 31 - 1)%Z.

(** What an [int] holds of an arbitrary integer: 32 bits, two's complement. *)
Definition as_int (z : Z) : Z := ((z - INT_MIN) mod 2 ^ 32 + INT_MIN)%Z.

Definition fits_int (z : Z) : bool := ((INT_MIN <=? z) && (z <=? INT_MAX))%Z.

(** The integer part of a finite double [+-m * 2^e], the fraction discarded
    toward zero ([Z.quot] is the division that rounds toward zero); nothing
    for NaN and the infinities. *)
Definition truncate (x : double) : option Z :=
  match Prim2SF x with
  | S754_zero _ => Some 0%Z
  | S754_finite s m e =>
      let n := if s then Zneg m else Zpos m in
      Some (Z.quot (n * 2 ^ Z.max e 0) (2 ^ Z.max (- e) 0))
  | S754_infinity _ | S754_nan => None
  end.

(** [int(x)] for a double [x]: the truncated value when [int] can hold it;
    otherwise whatever [int] the implementation leaves there. *)
Definition double_to_int (unspecified_int : double -> Z) (x : double) : Z :=
  match truncate x with
  | Some z => if fits_int z then z else as_int (unspecified_int x)
  | None => as_int (unspecified_int x)
  end.

(** How [operator<<] prints an [int]: decimal digits, a leading minus sign
    for negative values. *)
Definition print_int (z : Z) : list ascii :=
  list_ascii_of_string (NilZero.string_of_int (Z.to_int z)).

(* ------------------------------------------------------------------ *)
(** ** Complex points and the caller's functions ([types.hh]) *)

Record complex : Type := Complex { real : double; imag : double }.
Arguments Complex (real imag)%_float.

(** [operator+] of [std::complex<double>]. *)
Definition cadd (x y : complex) : complex :=
  Complex (real x + real y)%float (imag x + imag y)%float.

(** [operator==] of [std::complex<double>]: IEEE equality of both parts. *)
Definition ceq (x y : complex) : bool :=
  (real x =? real y)%float && (imag x =? imag y)%float.

Definition predicate : Type := complex -> bool.
Definition unit_map : Type := complex -> double.

(* ------------------------------------------------------------------ *)
(** ** The world a renderer runs in *)

Record world : Type := World {
  cout : list ascii;        (* what has been written to std::cout *)
  asked : list complex      (* the points passed to the caller's function *)
}.

Definition start : world := World [] [].

(** A command yields a value and a new world. *)
Definition M (A : Type) : Type := world -> A * world.

Definition ret {A} (a : A) : M A := fun w => (a, w).

Definition bind {A B} (m : M A) (k : A -> M B) : M B :=
  fun w => let (a, w') := m w in k a w'.

Declare Scope cmd_scope.
Delimit Scope cmd_scope with cmd.
Notation "x <- m ;; k" := (bind m (fun x => k))
  (at level 61, m at next level, right associativity) : cmd_scope.
Notation "m ;; k" := (bind m (fun _ => k))
  (at level 61, right associativity) : cmd_scope.
Local Open Scope cmd_scope.

(** [std::cout << s]. *)
Definition put (s : list ascii) : M unit :=
  fun w => (tt, World (cout w ++ s) (asked w)).

Definition newline : ascii := "010"%char.
Definition ESC : ascii := "027"%char.

(** [std::cout << std::endl]: a newline (the flush is not observable here). *)
Definition endl : M unit := put [newline].

(** A call [f(c)] of the caller's function. *)
Definition call {B} (f : complex -> B) (c : complex) : M B :=
  fun w => (f c, World (cout w) (asked w ++ [c])).

(** [for (unsigned i = lo; ...; ++i) body], with [n] iterations left.  The
    counters of [render.cc] stop at 24 and 80, far from the wrap-around of
    [unsigned]. *)
Fixpoint for_from (n : nat) (i : nat) (body : nat -> M unit) : M unit :=
  match n with
  | O => ret tt
  | S n' => body i ;; for_from n' (S i) body
  end.

(** [for (unsigned i = 0; i < bound; ++i) body]. *)
Definition for_lt (bound : nat) (body : nat -> M unit) : M unit :=
  for_from bound 0 body.

(* ------------------------------------------------------------------ *)
(** ** render.cc *)

Definition width : nat := 80.
Definition height : nat := 24.

(** void render(predicate pred, complex a, complex b) *)
Definition render (pred : predicate) (a b : complex) : M unit :=
  let scale_real := ((real b - real a) / int_to_double (Z.of_nat width))%float in
  let scale_imag := ((imag b - imag a) / int_to_double (Z.of_nat height))%float in
  for_lt height (fun j =>
    for_lt width (fun i =>
      let c := cadd a (Complex (unsigned_to_double i * scale_real)%float
                               (unsigned_to_double j * scale_imag)%float) in
      p <- call pred c ;;
      if p then put ["#"%char] else put [" "%char]) ;;
    endl).

(** struct Colour { int r, g, b; } *)
Module Colour.
Record t : Type := make { r : Z; g : Z; b : Z }.
End Colour.
Abbreviation Colour := Colour.t.

Section ColourMap.

(** [double pow(double, double)] of the C library; the [int] exponents of the
    source are converted to [double] at the call. *)
Variable pow : double -> double -> double.

(** The [int] an implementation yields where C++ defines none. *)
Variable unspecified_int : double -> Z.

Local Open Scope float_scope.

(** Colour colour_map(double x) *)
Definition colour_map (x : double) : Colour :=
  let r := (0.472 - 0.567 * x + 4.05 * pow x 2)
           / (1.0 + 8.72 * x - 19.17 * pow x 2 + 14.1 * pow x 3) in
  let g := 0.108932 - 1.22635 * x + 27.284 * pow x 2 - 98.577 * pow x 3
           + 163.3 * pow x 4 - 131.395 * pow x 5 + 40.634 * pow x 6 in
  let b := 1.0 / (1.97 + 3.54 * x - 68.5 * pow x 2 + 243 * pow x 3
                  - 297 * pow x 4 + 125 * pow x 5) in
  Colour.make (double_to_int unspecified_int (r * 255))
              (double_to_int unspecified_int (g * 255))
              (double_to_int unspecified_int (b * 255)).

(** void render_colour(unit_map f, complex a, complex b) *)
Definition render_colour (f : unit_map) (a b : complex) : M unit :=
  let scale_real := (real b - real a) / int_to_double (Z.of_nat width) in
  let scale_imag := (imag b - imag a) / int_to_double (Z.of_nat height) in
  (for_lt height (fun j =>
     for_lt width (fun i =>
       let c := cadd a (Complex (unsigned_to_double i * scale_real)
                                (unsigned_to_double j * scale_imag)) in
       x <- call f c ;;
       let colour := colour_map x in
       put (ESC :: list_ascii_of_string "[38;2;") ;;
       put (print_int (Colour.r colour)) ;;
       put [";"%char] ;;
       put (print_int (Colour.g colour)) ;;
       put [";"%char] ;;
       put (print_int (Colour.b colour)) ;;
       put (list_ascii_of_string "m#")) ;;
     endl) ;;
   put (ESC :: list_ascii_of_string "[m"))%cmd.

End ColourMap.

(** What a run from the empty world leaves on [std::cout], and the points it
    asked the caller's function about. *)
Definition output_of (m : M unit) : list ascii := cout (snd (m start)).

Definition trace_of (m : M unit) : list complex := asked (snd (m start)).

(** A reference power for the small integral exponents of [colour_map]:
    the product of [n] copies of [x].  Where every partial product is exactly
    representable (or overflows) this is the value any C library returns. *)
Definition pow_ref (x y : double) : double :=
  match truncate y with
  | Some (Zpos n) => Pos.iter (fun acc => (acc * x)%float) 1%float n
  | Some Z0 => 1%float
  | _ => nan
  end.

(* ------------------------------------------------------------------ *)
(** ** The grid and the picture, as the specification words them *)

(** The sample point of cell (i, j): [A + (i * scale_real, j * scale_imag)]
    with the scale factors [(B - A) / dimension] of section 4.1. *)
Definition sample (a b : complex) (i j : nat) : complex :=
  cadd a (Complex (unsigned_to_double i * ((real b - real a) / 80))%float
                  (unsigned_to_double j * ((imag b - imag a) / 24))%float).

(** All cells in row-major order: [j] outer, [i] inner. *)
Definition grid (a b : complex) : list complex :=
  flat_map (fun j => map (fun i => sample a b i j) (seq 0 width)) (seq 0 height).

Definition glyph (p : bool) : ascii := if p then "#"%char else " "%char.

(** The characters of the picture, one list per row. *)
Definition picture (pred : predicate) (a b : complex) : list (list ascii) :=
  map (fun j => map (fun i => glyph (pred (sample a b i j))) (seq 0 width))
      (seq 0 height).

(** Rows written one after the other, each closed by a newline. *)
Definition unlines (rows : list (list ascii)) : list ascii :=
  flat_map (fun row => row ++ [newline]) rows.

(** The lines of a stream: the text before each newline (and an unfinished
    last line, if any). *)
Fixpoint lines_from (cur : list ascii) (s : list ascii) : list (list ascii) :=
  match s with
  | [] => match cur with [] => [] | _ :: _ => [rev cur] end
  | c :: s' =>
      if Ascii.eqb c newline then rev cur :: lines_from [] s'
      else lines_from (c :: cur) s'
  end.

Definition lines (s : list ascii) : list (list ascii) := lines_from [] s.

(** The character of row [j], column [i] of a stream of lines. *)
Definition char_at (s : list ascii) (i j : nat) : option ascii :=
  match nth_error (lines s) j with
  | Some row => nth_error row i
  | None => None
  end.

(** A table written row after row: [cell j i] for [j0 <= j < j0 + h], and in
    each row [0 <= i < w]. *)
Definition table {A} (cell : nat -> nat -> A) (w h j0 : nat) : list A :=
  flat_map (fun j => map (cell j) (seq 0 w)) (seq j0 h).

(** The channel formulas of section 4.2, each operation a double operation
    in the order written. *)
Section Channels.

Variable pow : double -> double -> double.

Local Open Scope float_scope.

Definition red (x : double) : double :=
  (0.472 - 0.567 * x + 4.05 * pow x 2)
  / (1 + 8.72 * x - 19.17 * pow x 2 + 14.1 * pow x 3).

Definition green (x : double) : double :=
  0.108932 - 1.22635 * x + 27.284 * pow x 2 - 98.577 * pow x 3
  + 163.3 * pow x 4 - 131.395 * pow x 5 + 40.634 * pow x 6.

Definition blue (x : double) : double :=
  1 / (1.97 + 3.54 * x - 68.5 * pow x 2 + 243 * pow x 3
       - 297 * pow x 4 + 125 * pow x 5).

(** [pow] returns the exact product at [x] for the exponents 2 to 6. *)
Definition agrees_at (x : double) : Prop :=
  pow x 2 = pow_ref x 2 /\ pow x 3 = pow_ref x 3 /\ pow x 4 = pow_ref x 4 /\
  pow x 5 = pow_ref x 5 /\ pow x 6 = pow_ref x 6.

End Channels.

(** [integer_part v z]: [z] is the integer part of the finite double [v],
    taken toward zero and not to the nearest: with [v = +- n / d] exactly,
    [|z| <= n / d < |z| + 1], and [z] has the sign of [v] or is 0.  No integer
    is the integer part of NaN or of an infinity. *)
Definition integer_part (v : double) (z : Z) : Prop :=
  match Prim2SF v with
  | S754_zero _ => z = 0%Z
  | S754_finite s m e =>
      let n := (Zpos m * 2 ^ Z.max e 0)%Z in
      let d := (2 ^ Z.max (- e) 0)%Z in
      (Z.abs z * d <= n < (Z.abs z + 1) * d)%Z /\
      (if s then z <= 0 else 0 <= z)%Z
  | S754_infinity _ | S754_nan => False
  end.

(** The text of one coloured cell and the final reset. *)
Definition select_colour (c : Colour) : list ascii :=
  ESC :: list_ascii_of_string "[38;2;" ++ print_int (Colour.r c) ++ [";"%char]
      ++ print_int (Colour.g c) ++ [";"%char] ++ print_int (Colour.b c)
      ++ ["m"%char].

Definition coloured_cell (c : Colour) : list ascii := select_colour c ++ ["#"%char].

Definition reset : list ascii := ESC :: list_ascii_of_string "[m".

(** The rows of the gradient picture for the colours [col i j]. *)
Definition gradient (col : nat -> nat -> Colour) : list (list ascii) :=
  map (fun j => flat_map (fun i => coloured_cell (col i j)) (seq 0 width))
      (seq 0 height).

(** Classes of doubles, read off the sign-mantissa-exponent form. *)
Definition SFzerob (x : spec_float) : bool :=
  match x with S754_zero _ => true | _ => false end.

Definition SFfiniteb (x : spec_float) : bool :=
  match x with S754_zero _ | S754_finite _ _ _ => true | _ => false end.

(** [+0] and the positive finite doubles: what a loop counter converts to. *)
Definition SFcountb (x : spec_float) : bool :=
  match x with S754_zero false | S754_finite false _ _ => true | _ => false end.

Definition zerob (x : double) : bool := SFzerob (Prim2SF x).
Definition finiteb (x : double) : bool := SFfiniteb (Prim2SF x).

(** Adding [+0]: the identity on every double but [-0]. *)
Definition plus_zero (c : complex) : complex :=
  Complex (real c + 0)%float (imag c + 0)%float.

(** ** The sentences of the specification that the code does not bear out,
    as they are worded *)

(** Section 4.2: every input's channels are the truncated scaled formulas. *)
Definition every_input_truncated (pow : double -> double -> double)
    (unspecified_int : double -> Z) : Prop :=
  forall x, exists zr zg zb,
    truncate (red pow x * 255)%float = Some zr /\
    truncate (green pow x * 255)%float = Some zg /\
    truncate (blue pow x * 255)%float = Some zb /\
    colour_map pow unspecified_int x = Colour.make zr zg zb.

(** Section 8, property 5: swapping the corners mirrors the picture. *)
Definition swapped_is_mirrored : Prop :=
  forall (pred : predicate) a b i j, i < 80 -> j < 24 ->
    char_at (output_of (render pred b a)) i j
    = char_at (output_of (render pred a b)) (79 - i) (23 - j).

(** Equal corners: zero scale factors, every sample equal to the corner, one
    character everywhere. *)
Definition equal_corners_sample_the_corner : Prop :=
  forall (pred : predicate) a b, ceq a b = true ->
    zerob ((real b - real a) / 80)%float = true /\
    zerob ((imag b - imag a) / 24)%float = true /\
    (forall c, In c (grid a b) -> ceq c a = true) /\
    lines (output_of (render pred a b)) = repeat (repeat (glyph (pred a)) 80) 24.

(** Distinct corners: the second corner is not among the samples. *)
Definition corner_b_never_sampled : Prop :=
  forall a b, ceq a b = false -> ~ In b (grid a b).

(** ** Further vocabulary *)

(** The characters of a printed [int]. *)
Definition decimal_char (c : ascii) : Prop :=
  In c (list_ascii_of_string "0123456789-").

(** The sample points of the grid, one list per row. *)
Definition grid_rows (a b : complex) : list (list complex) :=
  map (fun j => map (fun i => sample a b i j) (seq 0 width)) (seq 0 height).

(** The effect of a command: what it appends to the two logs. *)
Definition extend (w : world) (out : list ascii) (pts : list complex) : world :=
  World (cout w ++ out) (asked w ++ pts).

(** [does m a out pts]: from any world, [m] yields [a], having written
    [out] and asked about [pts]. *)
Definition does {A} (m : M A) (a : A) (out : list ascii) (pts : list complex) : Prop :=
  forall w, m w = (a, extend w out pts).

(* ================================================================== *)
(** * Proofs *)

(** ** Commands *)

Lemma extend_nil w : extend w [] [] = w.
Proof. destruct w; unfold extend; simpl; now rewrite !app_nil_r. Qed.

Lemma extend_extend w o1 p1 o2 p2 :
  extend (extend w o1 p1) o2 p2 = extend w (o1 ++ o2) (p1 ++ p2).
Proof. unfold extend; simpl; now rewrite !app_assoc. Qed.

Lemma does_ret {A} (a : A) : does (ret a) a [] [].
Proof. intro w; unfold ret; now rewrite extend_nil. Qed.

Lemma does_put s : does (put s) tt s [].
Proof. intro w; unfold put, extend; now rewrite app_nil_r. Qed.

Lemma does_call {B} (f : complex -> B) c : does (call f c) (f c) [] [c].
Proof. intro w; unfold call, extend; now rewrite app_nil_r. Qed.

Lemma does_bind {A B} (m : M A) (k : A -> M B) a b o1 p1 o2 p2 :
  does m a o1 p1 -> does (k a) b o2 p2 -> does (bind m k) b (o1 ++ o2) (p1 ++ p2).
Proof.
  intros Hm Hk w; unfold bind; rewrite Hm, Hk; now rewrite extend_extend.
Qed.

(** [does_bind] up to the shape of the two logs. *)
Lemma does_then {A B} (m : M A) (k : A -> M B) a b o1 p1 o2 p2 out pts :
  does m a o1 p1 -> does (k a) b o2 p2 ->
  out = o1 ++ o2 -> pts = p1 ++ p2 -> does (bind m k) b out pts.
Proof. intros Hm Hk -> ->; now apply does_bind with (a := a). Qed.

Lemma does_for_from (body : nat -> M unit) out pts n : forall i0,
  (forall i, i0 <= i < i0 + n -> does (body i) tt (out i) (pts i)) ->
  does (for_from n i0 body) tt
       (flat_map out (seq i0 n)) (flat_map pts (seq i0 n)).
Proof.
  induction n as [|n IH]; intros i0 Hbody; simpl.
  - apply does_ret.
  - apply does_bind with (a := tt).
    + apply Hbody; lia.
    + apply IH; intros i Hi; apply Hbody; lia.
Qed.

Lemma does_for_lt (body : nat -> M unit) out pts n :
  (forall i, i < n -> does (body i) tt (out i) (pts i)) ->
  does (for_lt n body) tt (flat_map out (seq 0 n)) (flat_map pts (seq 0 n)).
Proof.
  intro H; apply does_for_from; intros i Hi; apply H; lia.
Qed.

Lemma trace_of_does (m : M unit) out pts : does m tt out pts -> trace_of m = pts.
Proof. intro H; unfold trace_of; now rewrite H. Qed.

Lemma output_of_does (m : M unit) out pts : does m tt out pts -> output_of m = out.
Proof. intro H; unfold output_of; now rewrite H. Qed.

Lemma flat_map_singleton {A B} (f : A -> B) l :
  flat_map (fun x => [f x]) l = map f l.
Proof. induction l; simpl; congruence. Qed.

Lemma int_to_double_width : int_to_double (Z.of_nat width) = 80%float.
Proof. reflexivity. Qed.

Lemma int_to_double_height : int_to_double (Z.of_nat height) = 24%float.
Proof. reflexivity. Qed.

(** The whole effect of [render]. *)
Lemma render_does pred a b :
  does (render pred a b) tt (unlines (picture pred a b)) (grid a b).
Proof.
  unfold render, unlines, picture, grid.
  rewrite int_to_double_width, int_to_double_height.
  rewrite flat_map_concat_map, map_map, <- flat_map_concat_map.
  apply does_for_lt; intros j _.
  eapply does_then with (a := tt);
    [ | apply does_put | reflexivity | symmetry; apply app_nil_r ].
  rewrite <- !flat_map_singleton.
  apply does_for_lt; intros i _.
  fold (sample a b i j).
  eapply does_then; [ apply does_call | | reflexivity | reflexivity ].
  destruct (pred (sample a b i j)); apply does_put.
Qed.

Lemma coloured_cell_parts c :
  coloured_cell c =
  (ESC :: list_ascii_of_string "[38;2;") ++ print_int (Colour.r c) ++ [";"%char]
    ++ print_int (Colour.g c) ++ [";"%char] ++ print_int (Colour.b c)
    ++ list_ascii_of_string "m#".
Proof.
  unfold coloured_cell, select_colour.
  change (list_ascii_of_string "m#") with (["m"%char] ++ ["#"%char]).
  rewrite !app_comm_cons, <- !app_assoc. reflexivity.
Qed.

(** The whole effect of [render_colour]. *)
Lemma render_colour_does pow u f a b :
  does (render_colour pow u f a b) tt
       (unlines (gradient (fun i j => colour_map pow u (f (sample a b i j)))) ++ reset)
       (grid a b).
Proof.
  unfold render_colour, unlines, gradient, grid.
  rewrite int_to_double_width, int_to_double_height.
  rewrite flat_map_concat_map, map_map, <- flat_map_concat_map.
  eapply does_then with (a := tt);
    [ | apply does_put | reflexivity | symmetry; apply app_nil_r ].
  apply does_for_lt; intros j _.
  eapply does_then with (a := tt);
    [ | apply does_put | reflexivity | symmetry; apply app_nil_r ].
  rewrite <- (flat_map_singleton (fun i => sample a b i j)).
  apply does_for_lt; intros i _.
  fold (sample a b i j). cbv beta.
  rewrite coloured_cell_parts.
  eapply does_then with (o1 := []);
    [ apply does_call | | reflexivity | reflexivity ].
  cbv zeta.
  repeat (eapply does_then with (a := tt) (p1 := []) (p2 := []);
          [ apply does_put | | reflexivity | reflexivity ]).
  apply does_put.
Qed.

(** ** Row-major tables *)

Lemma length_table {A} (cell : nat -> nat -> A) w h : forall j0,
  List.length (table cell w h j0) = h * w.
Proof.
  induction h as [|h IH]; intro j0; unfold table in *; simpl; auto.
  now rewrite length_app, length_map, length_seq, IH.
Qed.

Lemma nth_error_table {A} (cell : nat -> nat -> A) w h : forall j0 i j,
  i < w -> j < h ->
  nth_error (table cell w h j0) (j * w + i) = Some (cell (j0 + j) i).
Proof.
  induction h as [|h IH]; intros j0 i j Hi Hj; [lia|].
  unfold table in *; simpl.
  destruct j as [|j]; simpl.
  - rewrite nth_error_app1 by (now rewrite length_map, length_seq).
    rewrite nth_error_map, nth_error_seq.
    destruct (Nat.ltb_spec i w); [simpl | lia].
    now rewrite Nat.add_0_r.
  - rewrite nth_error_app2 by (rewrite length_map, length_seq; lia).
    rewrite length_map, length_seq.
    replace (w + j * w + i - w) with (j * w + i) by lia.
    rewrite IH by lia. f_equal; f_equal; lia.
Qed.

Lemma grid_table a b :
  grid a b = table (fun j i => sample a b i j) width height 0.
Proof. reflexivity. Qed.

Lemma length_grid a b : List.length (grid a b) = width * height.
Proof. rewrite grid_table, length_table; apply Nat.mul_comm. Qed.

Lemma nth_error_grid a b i j :
  i < width -> j < height ->
  nth_error (grid a b) (j * width + i) = Some (sample a b i j).
Proof. intros Hi Hj; rewrite grid_table; now rewrite nth_error_table. Qed.

(** ** Lines *)

Lemma lines_from_row row : forall cur rest,
  ~ In newline row ->
  lines_from cur (row ++ newline :: rest) = (rev cur ++ row) :: lines_from [] rest.
Proof.
  induction row as [|c row IH]; intros cur rest Hnl; simpl.
  - now rewrite app_nil_r.
  - destruct (Ascii.eqb_spec c newline) as [->|_].
    + exfalso; apply Hnl; now left.
    + rewrite IH by (intro; apply Hnl; now right).
      simpl; now rewrite <- app_assoc.
Qed.

Lemma lines_unlines rows :
  Forall (fun row => ~ In newline row) rows -> lines (unlines rows) = rows.
Proof.
  unfold lines, unlines.
  induction 1 as [|row rows Hrow _ IH]; simpl; auto.
  rewrite <- app_assoc; simpl.
  rewrite lines_from_row by assumption. simpl; now rewrite IH.
Qed.

Lemma glyph_not_newline p : glyph p <> newline.
Proof. destruct p; discriminate. Qed.

Lemma picture_no_newline pred a b :
  Forall (fun row => ~ In newline row) (picture pred a b).
Proof.
  unfold picture; apply Forall_forall; intros row Hrow.
  apply in_map_iff in Hrow as (j & <- & _).
  intro Hin; apply in_map_iff in Hin as (i & Hi & _).
  now apply glyph_not_newline in Hi.
Qed.

Lemma lines_picture pred a b :
  lines (unlines (picture pred a b)) = picture pred a b.
Proof. apply lines_unlines, picture_no_newline. Qed.

Lemma length_picture pred a b : List.length (picture pred a b) = height.
Proof. unfold picture; now rewrite length_map, length_seq. Qed.

Lemma picture_rows pred a b :
  Forall (fun row => List.length row = width) (picture pred a b).
Proof.
  unfold picture; apply Forall_forall; intros row Hrow.
  apply in_map_iff in Hrow as (j & <- & _).
  now rewrite length_map, length_seq.
Qed.

Lemma map_const_seq {A} (x : A) (f : nat -> A) n : forall s,
  (forall i, f i = x) -> map f (seq s n) = repeat x n.
Proof.
  induction n as [|n IH]; intros s H; simpl; auto.
  now rewrite H, IH.
Qed.

Lemma picture_constant pred a b p :
  (forall c, pred c = p) ->
  picture pred a b = repeat (repeat (glyph p) width) height.
Proof.
  intro H; unfold picture.
  apply map_const_seq; intro j.
  apply map_const_seq; intro i. now rewrite H.
Qed.

Lemma nth_error_picture pred a b i j :
  i < width -> j < height ->
  char_at (unlines (picture pred a b)) i j = Some (glyph (pred (sample a b i j))).
Proof.
  intros Hi Hj; unfold char_at. rewrite lines_picture. unfold picture.
  rewrite nth_error_map, nth_error_seq.
  destruct (Nat.ltb_spec j height); [cbn [option_map] | lia].
  rewrite nth_error_map, nth_error_seq.
  destruct (Nat.ltb_spec i width); [reflexivity | lia].
Qed.

(** ** The predicate renderer *)

(** The step is the scale factor, rounded once, times the counter: dividing
    after multiplying would give another double. *)
Remark scale_is_rounded_before_the_product :
  (unsigned_to_double 3 * ((1 - 0) / 80))%float
  <> (unsigned_to_double 3 * (1 - 0) / 80)%float.
Proof. intro H. vm_compute in H. discriminate H. Qed.

(** C1. For all corners [a], [b] and every predicate, [render] hands the
    caller's predicate exactly the points of the grid: 80 * 24 calls, the call
    number [j * 80 + i] being made at
    [a + (i * ((b.re - a.re) / 80), j * ((b.im - a.im) / 24))], so that every
    cell with [i < 80], [j < 24] is evaluated once, row by row ([j] outer,
    [i] inner). *)
Theorem render_samples_each_cell_once_row_major (pred : predicate) (a b : complex) :
  trace_of (render pred a b) = grid a b /\
  List.length (grid a b) = 80 * 24 /\
  (forall i j, i < 80 -> j < 24 ->
     nth_error (grid a b) (j * 80 + i) = Some (sample a b i j)) /\
  (forall k, k < 80 * 24 ->
     nth_error (grid a b) k = Some (sample a b (k mod 80) (k / 80))).
Proof.
  split; [apply (trace_of_does _ _ _ (render_does pred a b))|].
  split; [apply length_grid|].
  split; [intros i j Hi Hj; now apply nth_error_grid|].
  intros k Hk.
  rewrite (Nat.div_mod_eq k 80) at 1.
  rewrite (Nat.mul_comm 80).
  apply nth_error_grid.
  - apply Nat.mod_upper_bound; discriminate.
  - apply Nat.Div0.div_lt_upper_bound; exact Hk.
Qed.

(** C2. Whatever the predicate and the corners (distinct or not), [render]
    writes exactly 24 lines, each of exactly 80 characters followed by its
    newline; a predicate that is true everywhere gives 80 [#] per line, one
    that is false everywhere gives 80 spaces per line. *)
Theorem render_writes_24_lines_of_80 (pred : predicate) (a b : complex) :
  let out := output_of (render pred a b) in
  out = unlines (lines out) /\
  List.length (lines out) = 24 /\
  Forall (fun row => List.length row = 80) (lines out) /\
  ((forall c, pred c = true) ->
     lines out = repeat (repeat "#"%char 80) 24) /\
  ((forall c, pred c = false) ->
     lines out = repeat (repeat " "%char 80) 24).
Proof.
  intro out. unfold out.
  rewrite (output_of_does _ _ _ (render_does pred a b)), lines_picture.
  split; [reflexivity|].
  split; [apply length_picture|].
  split; [apply picture_rows|].
  split; intro H; now rewrite (picture_constant pred a b _ H).
Qed.

(** ** The two renderers sample alike *)

(** C10. For all corners, whatever the caller's functions, [render] and
    [render_colour] pass the same points to the caller's function in the same
    order: both traces are the row-major grid, so call number [j * 80 + i] of
    either is made at the sample point of cell (i, j). *)
Theorem render_and_render_colour_sample_alike
    (pow : double -> double -> double) (unspecified_int : double -> Z)
    (pred : predicate) (f : unit_map) (a b : complex) :
  trace_of (render pred a b) = trace_of (render_colour pow unspecified_int f a b) /\
  trace_of (render_colour pow unspecified_int f a b) = grid a b /\
  (forall i j, i < 80 -> j < 24 ->
     nth_error (trace_of (render pred a b)) (j * 80 + i) = Some (sample a b i j) /\
     nth_error (trace_of (render_colour pow unspecified_int f a b)) (j * 80 + i)
     = Some (sample a b i j)).
Proof.
  pose proof (trace_of_does _ _ _ (render_does pred a b)) as Hr.
  pose proof (trace_of_does _ _ _ (render_colour_does pow unspecified_int f a b)) as Hc.
  rewrite Hr, Hc.
  split; [reflexivity|]. split; [reflexivity|].
  intros i j Hi Hj; split; now apply nth_error_grid.
Qed.

(** ** The gradient renderer *)

Lemma length_gradient col : List.length (gradient col) = height.
Proof. unfold gradient; now rewrite length_map, length_seq. Qed.

Lemma nth_error_gradient col j :
  j < height ->
  nth_error (gradient col) j
  = Some (flat_map (fun i => coloured_cell (col i j)) (seq 0 width)).
Proof.
  intro Hj; unfold gradient. rewrite nth_error_map, nth_error_seq.
  destruct (Nat.ltb_spec j height); [reflexivity | lia].
Qed.

(** C5. For every scalar function and all corners, [render_colour] writes the
    24 rows of the grid in order, each row being its 80 cells in order and a
    newline, each cell being [ESC "[38;2;" R ";" G ";" B "m"] with R, G, B the
    decimal channels of [colour_map] at the cell's sample, directly followed
    by [#]; after the last row comes [ESC "[m"], whatever the grid holds. *)
Theorem render_colour_writes_coloured_cells_then_reset
    (pow : double -> double -> double) (unspecified_int : double -> Z)
    (f : unit_map) (a b : complex) :
  let col := fun i j => colour_map pow unspecified_int (f (sample a b i j)) in
  output_of (render_colour pow unspecified_int f a b)
  = unlines (gradient col) ++ ESC :: list_ascii_of_string "[m" /\
  List.length (gradient col) = 24 /\
  (forall j, j < 24 ->
     nth_error (gradient col) j
     = Some (flat_map (fun i => coloured_cell (col i j)) (seq 0 80))) /\
  (forall c, coloured_cell c
     = ESC :: list_ascii_of_string "[38;2;" ++ print_int (Colour.r c)
         ++ [";"%char] ++ print_int (Colour.g c)
         ++ [";"%char] ++ print_int (Colour.b c) ++ list_ascii_of_string "m#").
Proof.
  intro col.
  split; [apply (output_of_does _ _ _ (render_colour_does pow unspecified_int f a b))|].
  split; [apply length_gradient|].
  split; [intros j Hj; now apply nth_error_gradient|].
  intro c; rewrite coloured_cell_parts. reflexivity.
Qed.

(** ** The colour mapper *)

Lemma colour_map_channels pow u x :
  colour_map pow u x
  = Colour.make (double_to_int u (red pow x * 255)%float)
                (double_to_int u (green pow x * 255)%float)
                (double_to_int u (blue pow x * 255)%float).
Proof. reflexivity. Qed.

Lemma as_int_range z : (INT_MIN <= as_int z <= INT_MAX)%Z.
Proof.
  unfold as_int, INT_MIN, INT_MAX.
  pose proof (Z.mod_pos_bound (z - - 2 ^ 31) (2 ^ 32) eq_refl). lia.
Qed.

Lemma double_to_int_range u x :
  (INT_MIN <= double_to_int u x <= INT_MAX)%Z.
Proof.
  unfold double_to_int.
  destruct (truncate x) as [z|]; [|apply as_int_range].
  destruct (fits_int z) eqn:Hf; [|apply as_int_range].
  unfold fits_int in Hf. apply andb_prop in Hf as [H1 H2].
  apply Z.leb_le in H1, H2. now split.
Qed.

(** [truncate] discards the fraction toward zero: with the double equal to
    [n / d] ([d] a power of two), the result [z] is the integer nearest to
    zero with [n / d] between it and the next one away from zero. *)
Lemma truncate_toward_zero x s m e z :
  Prim2SF x = S754_finite s m e ->
  truncate x = Some z ->
  let n := ((if s then Zneg m else Zpos m) * 2 ^ Z.max e 0)%Z in
  let d := (2 ^ Z.max (- e) 0)%Z in
  (0 < d)%Z /\
  (if s then ((z - 1) * d < n <= z * d /\ z <= 0)
        else (z * d <= n < (z + 1) * d /\ 0 <= z))%Z.
Proof.
  intros Hx Ht n d. unfold truncate in Ht. rewrite Hx in Ht.
  injection Ht as <-. fold n d.
  assert (Hd : (0 < d)%Z) by (apply Z.pow_pos_nonneg; lia).
  assert (Hp : (0 < 2 ^ Z.max e 0)%Z) by (apply Z.pow_pos_nonneg; lia).
  split; [exact Hd|].
  pose proof (Z.quot_rem' n d) as Hqr.
  destruct s.
  - assert (Hn : (n <= 0)%Z) by (unfold n; nia).
    pose proof (Z.rem_bound_pos_neg n d Hd Hn) as Hr.
    assert (Hq : (n ÷ d <= 0)%Z) by (apply Z.quot_le_upper_bound; lia).
    nia.
  - assert (Hn : (0 <= n)%Z) by (unfold n; nia).
    pose proof (Z.rem_bound_pos n d Hn Hd) as Hr.
    assert (Hq : (0 <= n ÷ d)%Z) by (apply Z.quot_pos; lia).
    nia.
Qed.

(** C3. With [pow(0, k) = 0] for the exponents used (as every C library
    returns), [colour_map(0)] is r = 120, g = 27, b = 129: the three formulas
    at 0 reduce to 0.472 / 1, 0.108932 and 1 / 1.97, and each, times 255, is
    truncated toward zero (the green channel, 27.77..., is not rounded up). *)
Theorem colour_map_zero_is_120_27_129
    (pow : double -> double -> double) (unspecified_int : double -> Z) :
  agrees_at pow 0%float ->
  colour_map pow unspecified_int 0%float = Colour.make 120 27 129 /\
  (red pow 0 = 0.472 / 1 /\ green pow 0 = 0.108932 /\ blue pow 0 = 1 / 1.97)%float /\
  truncate (0.472 / 1 * 255)%float = Some 120%Z /\
  truncate (0.108932 * 255)%float = Some 27%Z /\
  truncate (1 / 1.97 * 255)%float = Some 129%Z /\
  (27.5 <? 0.108932 * 255)%float = true.
Proof.
  intros (H2 & H3 & H4 & H5 & H6).
  assert (Hr : (red pow 0 = 0.472 / 1)%float)
    by (unfold red; rewrite H2, H3; reflexivity).
  assert (Hg : (green pow 0 = 0.108932)%float)
    by (unfold green; rewrite H2, H3, H4, H5, H6; reflexivity).
  assert (Hb : (blue pow 0 = 1 / 1.97)%float)
    by (unfold blue; rewrite H2, H3, H4, H5; reflexivity).
  split.
  - rewrite colour_map_channels, Hr, Hg, Hb. reflexivity.
  - repeat split; try assumption; reflexivity.
Qed.

Lemma colour_map_zero_witness :
  agrees_at pow_ref 0%float /\
  colour_map pow_ref (fun _ => 0%Z) 0%float = Colour.make 120 27 129.
Proof.
  assert (H : agrees_at pow_ref 0%float) by (repeat split).
  split; [exact H|].
  exact (proj1 (colour_map_zero_is_120_27_129 pow_ref (fun _ => 0%Z) H)).
Defined.

(** C4 as worded fails: at x = 2^20 the green channel times 255 truncates to
    an integer beyond [INT_MAX], which no [int] returned by [colour_map] can
    equal, whatever the implementation leaves there. *)
Lemma colour_map_cannot_hold_every_truncation :
  ~ exists unspecified_int, every_input_truncated pow_ref unspecified_int.
Proof.
  intros [u H]. destruct (H 0x1p20%float) as (zr & zg & zb & _ & Hg & _ & Hc).
  rewrite colour_map_channels in Hc.
  apply (f_equal Colour.g) in Hc; cbn [Colour.g] in Hc.
  pose proof (double_to_int_range u (green pow_ref 0x1p20 * 255)%float) as Hrange.
  rewrite Hc in Hrange.
  vm_compute in Hg. injection Hg as <-.
  unfold INT_MAX in Hrange. lia.
Qed.

(** The integer part, as the bounds define it, is what [truncate] computes. *)
Lemma integer_part_truncate v z : integer_part v z <-> truncate v = Some z.
Proof.
  unfold integer_part.
  destruct (Prim2SF v) as [s0|s0| |s m e] eqn:Hv.
  - unfold truncate; rewrite Hv. split; [intros ->; reflexivity | congruence].
  - unfold truncate; rewrite Hv. split; [tauto | discriminate].
  - unfold truncate; rewrite Hv. split; [tauto | discriminate].
  - destruct (truncate v) as [q|] eqn:Hq;
      [|unfold truncate in Hq; rewrite Hv in Hq; discriminate].
    pose proof (truncate_toward_zero v s m e q Hv Hq) as [Hd Hb].
    cbv zeta in Hb |- *.
    set (n := (Zpos m * 2 ^ Z.max e 0)%Z) in *.
    set (d := (2 ^ Z.max (- e) 0)%Z) in *.
    assert (En : (Z.neg m * 2 ^ Z.max e 0 = - n)%Z) by (unfold n; lia).
    split.
    + intros [Hz Hs]. f_equal. destruct s.
      * rewrite En in Hb. assert (q < z + 1)%Z by nia.
        assert (z < q + 1)%Z by nia. lia.
      * fold n in Hb. assert (q < z + 1)%Z by nia.
        assert (z < q + 1)%Z by nia. lia.
    + intros [= <-]. destruct s.
      * rewrite En in Hb. split; [|lia]. rewrite Z.abs_neq by lia. nia.
      * fold n in Hb. split; [|lia]. rewrite Z.abs_eq by lia. nia.
Qed.

(** [int(v)] is the integer part of a finite [v] exactly when [int] holds
    that integer part. *)
Lemma double_to_int_integer_part u v z :
  integer_part v z -> (double_to_int u v = z <-> fits_int z = true).
Proof.
  intro H. apply integer_part_truncate in H.
  pose proof (double_to_int_range u v) as Hrange.
  unfold double_to_int in *. rewrite H in *.
  destruct (fits_int z) eqn:Hf; split; try reflexivity; try discriminate.
  intro E. rewrite E in Hrange.
  unfold fits_int in Hf. apply andb_false_iff in Hf as [Hf|Hf];
    apply Z.leb_gt in Hf; lia.
Qed.

(** C4, amended. For every input and each channel whose formula value times
    255 is finite, with [z] the integer part of that value toward zero (not
    the nearest integer): the channel of [colour_map x] is [z] exactly when
    [z] fits [int], whatever the other channels are.  Nothing is clamped:
    with exact powers of 2, [colour_map(2)] has the green channel 83362, the
    integer part of its scaled formula value. *)
Theorem colour_map_truncates_without_clamping
    (pow : double -> double -> double) (unspecified_int : double -> Z) :
  (forall x z, integer_part (red pow x * 255)%float z ->
     (Colour.r (colour_map pow unspecified_int x) = z <-> fits_int z = true)) /\
  (forall x z, integer_part (green pow x * 255)%float z ->
     (Colour.g (colour_map pow unspecified_int x) = z <-> fits_int z = true)) /\
  (forall x z, integer_part (blue pow x * 255)%float z ->
     (Colour.b (colour_map pow unspecified_int x) = z <-> fits_int z = true)) /\
  (agrees_at pow 2%float ->
     colour_map pow unspecified_int 2%float = Colour.make 72 83362 0 /\
     integer_part (green pow 2 * 255)%float 83362 /\ (255 < 83362)%Z).
Proof.
  split; [|split; [|split]].
  - intros x z H. rewrite colour_map_channels; cbn [Colour.r].
    now apply double_to_int_integer_part.
  - intros x z H. rewrite colour_map_channels; cbn [Colour.g].
    now apply double_to_int_integer_part.
  - intros x z H. rewrite colour_map_channels; cbn [Colour.b].
    now apply double_to_int_integer_part.
  - intros (H2 & H3 & H4 & H5 & H6).
    assert (Hr : integer_part (red pow 2 * 255)%float 72)
      by (apply integer_part_truncate; unfold red; rewrite H2, H3; reflexivity).
    assert (Hg : integer_part (green pow 2 * 255)%float 83362)
      by (apply integer_part_truncate; unfold green;
          rewrite H2, H3, H4, H5, H6; reflexivity).
    assert (Hb : integer_part (blue pow 2 * 255)%float 0)
      by (apply integer_part_truncate; unfold blue;
          rewrite H2, H3, H4, H5; reflexivity).
    split; [|split; [exact Hg | reflexivity]].
    rewrite colour_map_channels. f_equal.
    + now apply (double_to_int_integer_part _ _ _ Hr).
    + now apply (double_to_int_integer_part _ _ _ Hg).
    + now apply (double_to_int_integer_part _ _ _ Hb).
Qed.

Lemma colour_map_two_witness :
  agrees_at pow_ref 2%float /\
  integer_part (green pow_ref 2 * 255)%float 83362 /\
  fits_int 83362 = true /\
  Colour.g (colour_map pow_ref (fun _ => 0%Z) 2%float) = 83362%Z /\
  colour_map pow_ref (fun _ => 0%Z) 2%float = Colour.make 72 83362 0.
Proof.
  assert (H : agrees_at pow_ref 2%float) by (repeat split).
  pose proof (colour_map_truncates_without_clamping pow_ref (fun _ => 0%Z))
    as (_ & Hgreen & _ & Htwo).
  destruct (Htwo H) as (Hc & Hg & _).
  assert (Hf : fits_int 83362 = true) by reflexivity.
  exact (conj H (conj Hg (conj Hf
           (conj (proj2 (Hgreen 2%float 83362%Z Hg) Hf) Hc)))).
Defined.

(** ** The far corner *)

Lemma in_grid a b c :
  In c (grid a b) <-> exists i j, i <= 79 /\ j <= 23 /\ c = sample a b i j.
Proof.
  unfold grid; rewrite in_flat_map; split.
  - intros (j & Hj & Hc). apply in_map_iff in Hc as (i & <- & Hi).
    apply in_seq in Hj, Hi. unfold width, height in *.
    exists i, j; repeat split; lia.
  - intros (i & j & Hi & Hj & ->). exists j; split.
    + apply in_seq; unfold height; lia.
    + apply in_map_iff; exists i; split; [reflexivity|].
      apply in_seq; unfold width; lia.
Qed.

(** C9 as worded fails: between the adjacent doubles 1 and 1 + 2^-52 the
    79th step is rounded up to the far corner, so cell (79, 0) samples B. *)
Lemma adjacent_corners_sample_corner_b : ~ corner_b_never_sampled.
Proof.
  intro H.
  apply (H (Complex 1 0) (Complex (1 + 0x1p-52) 0)); [reflexivity|].
  apply in_grid; exists 79, 0; repeat split; try lia.
Qed.

(** C9, amended. Both renderers use exactly the cells with columns 0..79 and
    rows 0..23: every point they sample is the sample of such a cell, the
    last one being [a + (79 * scale_real, 23 * scale_imag)]; the cell indices
    80 and 24, where B lies, are never used. *)
Theorem renderers_stop_one_cell_short
    (pow : double -> double -> double) (unspecified_int : double -> Z)
    (pred : predicate) (f : unit_map) (a b : complex) :
  trace_of (render pred a b) = grid a b /\
  trace_of (render_colour pow unspecified_int f a b) = grid a b /\
  (forall c, In c (grid a b) <->
     exists i j, i <= 79 /\ j <= 23 /\ c = sample a b i j) /\
  nth_error (grid a b) (List.length (grid a b) - 1) = Some (sample a b 79 23).
Proof.
  split; [apply (trace_of_does _ _ _ (render_does pred a b))|].
  split; [apply (trace_of_does _ _ _ (render_colour_does pow unspecified_int f a b))|].
  split; [apply in_grid|].
  rewrite length_grid.
  change (width * height - 1) with (23 * width + 79).
  apply nth_error_grid; unfold width, height; lia.
Qed.

(** ** Swapped corners *)

Lemma char_at_render pred a b i j :
  i < width -> j < height ->
  char_at (output_of (render pred a b)) i j = Some (glyph (pred (sample a b i j))).
Proof.
  intros Hi Hj. rewrite (output_of_does _ _ _ (render_does pred a b)).
  now apply nth_error_picture.
Qed.

(** C6 as worded fails: with A = 0 and B = 80 + 24i the columns are sampled
    at 0, 1, ..., 79, and from the swapped corners at 80, 79, ..., 1; the
    predicate [re < 1] marks column 0 of the first picture and no column of
    the second. *)
Lemma swapped_render_is_not_the_mirror : ~ swapped_is_mirrored.
Proof.
  intro H.
  specialize (H (fun c => (real c <? 1)%float) (Complex 0 0) (Complex 80 24) 79 0).
  rewrite !char_at_render in H by (unfold width, height; lia).
  specialize (H ltac:(lia) ltac:(lia)).
  vm_compute in H. discriminate H.
Qed.

(** ** Doubles: negation *)

Section Negation.

Lemma binary_round_aux_negb s m e l :
  binary_round_aux prec emax (negb s) m e l = SFopp (binary_round_aux prec emax s m e l).
Proof.
  unfold binary_round_aux.
  destruct (shr_fexp prec emax m e l) as [mrs e'].
  destruct (shr_fexp prec emax _ e' loc_Exact) as [mrs' e''].
  destruct (shr_m mrs'); [reflexivity | | reflexivity].
  destruct (e'' <=? emax - prec)%Z; reflexivity.
Qed.

Lemma binary_round_negb s m e :
  binary_round prec emax (negb s) m e = SFopp (binary_round prec emax s m e).
Proof.
  unfold binary_round.
  destruct (shl_align m e _) as [mz ez]. apply binary_round_aux_negb.
Qed.

Lemma binary_normalize_opp m e :
  m <> 0%Z ->
  binary_normalize prec emax (- m) e false = SFopp (binary_normalize prec emax m e false).
Proof.
  destruct m as [|p|p]; intro H; [congruence | |]; simpl.
  - apply (binary_round_negb false).
  - apply (binary_round_negb true).
Qed.

Lemma SF64mul_opp_r x y : SF64mul x (SFopp y) = SFopp (SF64mul x y).
Proof.
  destruct x as [sx|sx| |sx mx ex], y as [sy|sy| |sy my ey]; simpl;
    try reflexivity; try (now destruct sx, sy).
  replace (xorb sx (negb sy)) with (negb (xorb sx sy)) by now destruct sx, sy.
  apply binary_round_aux_negb.
Qed.

Lemma SF64div_opp_l x y : SF64div (SFopp x) y = SFopp (SF64div x y).
Proof.
  destruct x as [sx|sx| |sx mx ex], y as [sy|sy| |sy my ey]; simpl;
    try reflexivity; try (now destruct sx, sy).
  destruct (SFdiv_core_binary prec emax (Z.pos mx) ex (Z.pos my) ey) as [[mz ez] lz].
  replace (xorb (negb sx) sy) with (negb (xorb sx sy)) by now destruct sx, sy.
  apply binary_round_aux_negb.
Qed.

Lemma SF64add_opp_r x y : SF64add x (SFopp y) = SF64sub x y.
Proof.
  destruct x as [sx|sx| |sx mx ex], y as [sy|sy| |sy my ey]; simpl;
    try reflexivity; now destruct sx, sy.
Qed.

Lemma SF64sub_swap x y :
  SFzerob (SF64sub y x) = false -> SF64sub x y = SFopp (SF64sub y x).
Proof.
  destruct x as [sx|sx| |sx mx ex], y as [sy|sy| |sy my ey]; simpl;
    try reflexivity; try (now destruct sx, sy).
  unfold SF64sub, SFsub. intro H.
  rewrite (Z.min_comm ex ey).
  set (ez := Z.min ey ex) in *.
  set (X := cond_Zopp sx _) in *. set (Y := cond_Zopp sy _) in *.
  replace (X - Y)%Z with (- (Y - X))%Z by lia.
  apply binary_normalize_opp.
  intro H0. rewrite H0 in H. discriminate H.
Qed.

End Negation.

Local Open Scope float_scope.

Lemma mul_opp_r x y : x * (- y) = - (x * y).
Proof.
  apply Prim2SF_inj. now rewrite FloatAxioms.mul_spec, !FloatAxioms.opp_spec, FloatAxioms.mul_spec, SF64mul_opp_r.
Qed.

Lemma div_opp_l x y : (- x) / y = - (x / y).
Proof.
  apply Prim2SF_inj. now rewrite FloatAxioms.div_spec, !FloatAxioms.opp_spec, FloatAxioms.div_spec, SF64div_opp_l.
Qed.

Lemma add_opp_r x y : x + (- y) = x - y.
Proof.
  apply Prim2SF_inj. now rewrite FloatAxioms.add_spec, FloatAxioms.opp_spec, FloatAxioms.sub_spec, SF64add_opp_r.
Qed.

Lemma sub_swap x y : zerob (y - x) = false -> x - y = - (y - x).
Proof.
  intro H. apply Prim2SF_inj. rewrite FloatAxioms.opp_spec, !FloatAxioms.sub_spec.
  apply SF64sub_swap. unfold zerob in H. rewrite FloatAxioms.sub_spec in H.
  exact H.
Qed.

(** ** Doubles: signed zeros *)

Section SignedZero.

Lemma SF64sub_diag s m e :
  SF64sub (S754_finite s m e) (S754_finite s m e) = S754_zero false.
Proof.
  unfold SF64sub, SFsub. now rewrite Z.sub_diag.
Qed.

Lemma SFeqb_finite x y :
  SFfiniteb x = true -> SFeqb x y = true ->
  (SFzerob x = true /\ SFzerob y = true) \/
  (exists s m e, x = S754_finite s m e /\ y = x).
Proof.
  destruct x as [sx|sx| |sx mx ex], y as [sy|sy| |sy my ey];
    intros Hx H; try discriminate Hx; unfold SFeqb, SFcompare in H;
    try (left; split; reflexivity);
    try (destruct sx; discriminate H); try (destruct sy; discriminate H);
    try discriminate H.
  right. exists sx, mx, ex. split; [reflexivity|].
  destruct sx, sy; try discriminate;
    destruct (Z.compare_spec ex ey) as [->| |]; try discriminate;
    change (Pos.compare_cont Eq mx my) with (Pos.compare mx my) in H;
    destruct (Pos.compare_spec mx my) as [->| |]; try discriminate;
    reflexivity.
Qed.

(** From a finite [x] and an equal [y], any whole number of steps
    [(y - x) / d] leaves [x + 0]. *)
Lemma SF_equal_corner_step x y n md ed :
  SFfiniteb x = true -> SFeqb x y = true -> SFcountb n = true ->
  let step := SF64div (SF64sub y x) (S754_finite false md ed) in
  SFzerob step = true /\
  SF64add x (SF64mul n step) = SF64add x (S754_zero false).
Proof.
  intros Hx Heq Hn.
  destruct (SFeqb_finite x y Hx Heq) as [[Hzx Hzy] | (s & m & e & -> & ->)].
  - destruct x as [sx| | |], y as [sy| | |]; try discriminate.
    destruct n as [[|]| | |[|] mn en]; try discriminate;
      destruct sx, sy; split; reflexivity.
  - cbv zeta. rewrite SF64sub_diag.
    destruct n as [[|]| | |[|] mn en]; try discriminate; split; reflexivity.
Qed.

Lemma SF64add_zero_r x :
  x <> S754_zero true -> SF64add x (S754_zero false) = x.
Proof.
  destruct x as [[|]|sx| |sx mx ex]; try reflexivity. congruence.
Qed.

Lemma SFeqb_add_zero x :
  SFfiniteb x = true -> SFeqb (SF64add x (S754_zero false)) x = true.
Proof.
  destruct x as [[|]|sx| |sx mx ex]; try discriminate; try reflexivity.
  intros _. cbn. unfold SFeqb, SFcompare.
  rewrite Z.compare_refl.
  change (Pos.compare_cont Eq mx mx) with (Pos.compare mx mx).
  rewrite Pos.compare_refl. now destruct sx.
Qed.

End SignedZero.


Lemma unsigned_to_double_count i :
  i < 80 -> SFcountb (Prim2SF (unsigned_to_double i)) = true.
Proof.
  intro H. do 80 (destruct i as [|i]; [reflexivity|]). lia.
Qed.

Lemma equal_corner_step x y i d md ed :
  Prim2SF d = S754_finite false md ed ->
  finiteb x = true -> (x =? y) = true -> i < 80 ->
  zerob ((y - x) / d) = true /\
  x + unsigned_to_double i * ((y - x) / d) = x + 0.
Proof.
  intros Hd Hx Heq Hi. rewrite FloatAxioms.eqb_spec in Heq.
  pose proof (SF_equal_corner_step _ _ _ md ed Hx Heq (unsigned_to_double_count i Hi))
    as [Hz Hs].
  split.
  - unfold zerob. now rewrite FloatAxioms.div_spec, FloatAxioms.sub_spec, Hd.
  - apply Prim2SF_inj.
    now rewrite !FloatAxioms.add_spec, FloatAxioms.mul_spec, FloatAxioms.div_spec, FloatAxioms.sub_spec, Hd.
Qed.

Lemma add_zero_r x : x <> (-0) -> x + 0 = x.
Proof.
  intro H. apply Prim2SF_inj. rewrite FloatAxioms.add_spec.
  apply SF64add_zero_r. intro Hx. apply H.
  apply Prim2SF_inj. now rewrite Hx.
Qed.

Lemma eqb_add_zero x : finiteb x = true -> (x + 0 =? x) = true.
Proof.
  intro H. rewrite FloatAxioms.eqb_spec, FloatAxioms.add_spec. now apply SFeqb_add_zero.
Qed.

Lemma positive_divisor_80 : exists md ed, Prim2SF 80 = S754_finite false md ed.
Proof. do 2 eexists; reflexivity. Qed.

Lemma positive_divisor_24 : exists md ed, Prim2SF 24 = S754_finite false md ed.
Proof. do 2 eexists; reflexivity. Qed.

Local Close Scope float_scope.

(** ** Swapped corners, continued *)

(** On an axis where the corners differ, the swapped scale factor is the
    negated scale factor, and [i] steps from [y] land on [y - i * scale]. *)
Lemma swapped_axis x y d n :
  zerob (y - x)%float = false ->
  ((x - y) / d = - ((y - x) / d) /\
   y + n * ((x - y) / d) = y - n * ((y - x) / d))%float.
Proof.
  intro H.
  assert (E : ((x - y) / d = - ((y - x) / d))%float)
    by (rewrite (sub_swap x y H); apply div_opp_l).
  split; [exact E|].
  now rewrite E, mul_opp_r, add_opp_r.
Qed.

(** C6, amended. The character at cell (i, j) of [render(pred, B, A)] shows
    the predicate at [B + (i * ((A.re - B.re) / 80), j * ((A.im - B.im) / 24))];
    on each axis where [B - A] is not zero the swapped scale factor is exactly
    the negated scale factor of [render(pred, A, B)], so that coordinate is
    [B - i * scale_real] (resp. [B - j * scale_imag]): the swapped render walks
    the same steps backwards from B. *)
Theorem swapped_corners_step_backwards
    (pred : predicate) (a b : complex) (i j : nat) :
  i < 80 -> j < 24 ->
  char_at (output_of (render pred b a)) i j = Some (glyph (pred (sample b a i j))) /\
  (zerob (real b - real a)%float = false ->
     ((real a - real b) / 80 = - ((real b - real a) / 80))%float /\
     real (sample b a i j)
     = (real b - unsigned_to_double i * ((real b - real a) / 80))%float) /\
  (zerob (imag b - imag a)%float = false ->
     ((imag a - imag b) / 24 = - ((imag b - imag a) / 24))%float /\
     imag (sample b a i j)
     = (imag b - unsigned_to_double j * ((imag b - imag a) / 24))%float).
Proof.
  intros Hi Hj.
  split; [now apply char_at_render|].
  split; intro H; unfold sample, cadd; cbn [real imag]; now apply swapped_axis.
Qed.

Lemma swapped_corners_witness :
  79 < 80 /\ 0 < 24 /\
  char_at (output_of (render (fun c => (real c <? 1)%float)
                             (Complex 80 24) (Complex 0 0))) 79 0
  = Some (glyph ((fun c => (real c <? 1)%float)
                   (sample (Complex 80 24) (Complex 0 0) 79 0))) /\
  real (sample (Complex 80 24) (Complex 0 0) 79 0)
  = (80 - unsigned_to_double 79 * ((80 - 0) / 80))%float.
Proof.
  assert (Hi : 79 < 80) by lia.
  assert (Hj : 0 < 24) by lia.
  pose proof (swapped_corners_step_backwards (fun c => (real c <? 1)%float)
                (Complex 0 0) (Complex 80 24) 79 0 Hi Hj) as (Hc & Hre & _).
  exact (conj Hi (conj Hj (conj Hc (proj2 (Hre eq_refl))))).
Defined.

(** ** Equal corners *)

Lemma sample_equal_corners a b i j :
  ceq a b = true -> finiteb (real a) = true -> finiteb (imag a) = true ->
  i < 80 -> j < 24 ->
  sample a b i j = plus_zero a.
Proof.
  intros Heq Hre Him Hi Hj.
  apply andb_prop in Heq as [Er Ei].
  destruct positive_divisor_80 as (m80 & e80 & H80).
  destruct positive_divisor_24 as (m24 & e24 & H24).
  assert (Hj' : j < 80) by lia.
  unfold sample, plus_zero, cadd; cbn [real imag].
  f_equal.
  - exact (proj2 (equal_corner_step _ _ i _ _ _ H80 Hre Er Hi)).
  - exact (proj2 (equal_corner_step _ _ j _ _ _ H24 Him Ei Hj')).
Qed.

Lemma picture_uniform pred a b c0 :
  (forall i j, i < width -> j < height -> sample a b i j = c0) ->
  picture pred a b = repeat (repeat (glyph (pred c0)) width) height.
Proof.
  intro H. unfold picture.
  rewrite <- (map_const_seq _ (fun _ => repeat (glyph (pred c0)) width) height 0)
    by reflexivity.
  apply map_ext_in; intros j Hj. apply in_seq in Hj.
  rewrite <- (map_const_seq _ (fun _ => glyph (pred c0)) width 0) by reflexivity.
  apply map_ext_in; intros i Hi. apply in_seq in Hi.
  rewrite H by lia. reflexivity.
Qed.

(** C8 as worded fails: at the equal corners A = B = (infinity, 0) the real
    scale factor is (inf - inf) / 80 = NaN, not zero. *)
Lemma infinite_equal_corners_have_no_zero_scale :
  ~ equal_corners_sample_the_corner.
Proof.
  intro H.
  destruct (H (fun _ => true) (Complex infinity 0) (Complex infinity 0) eq_refl)
    as [Hz _].
  discriminate Hz.
Qed.

(** A corner at [-0] is sampled at [+0], which a predicate can tell apart. *)
Remark negative_zero_corner_is_sampled_at_zero :
  let a := Complex (-0) 0 in
  let pred := fun c => (1 / real c <? 0)%float in
  ceq a a = true /\ pred a = true /\
  lines (output_of (render pred a a)) = repeat (repeat " "%char 80) 24.
Proof.
  intros a pred. split; [reflexivity|]. split; [reflexivity|].
  rewrite (output_of_does _ _ _ (render_does pred a a)), lines_picture.
  rewrite (picture_uniform pred a a (plus_zero a)).
  - reflexivity.
  - intros i j Hi Hj. now apply sample_equal_corners.
Qed.

(** C8, amended. When the corners are equal and both coordinates of A are
    finite, the divisors 80 and 24 are not zero, both scale factors are zeros,
    every sample is [A + 0] (equal to A, and A itself unless a coordinate of A
    is -0), and the output is 24 identical lines of 80 identical characters:
    [#] if the predicate holds at [A + 0], a space otherwise. *)
Theorem equal_finite_corners_render_one_character
    (pred : predicate) (a b : complex) :
  ceq a b = true -> finiteb (real a) = true -> finiteb (imag a) = true ->
  zerob (int_to_double (Z.of_nat width)) = false /\
  zerob (int_to_double (Z.of_nat height)) = false /\
  zerob ((real b - real a) / 80)%float = true /\
  zerob ((imag b - imag a) / 24)%float = true /\
  (forall c, In c (grid a b) -> c = plus_zero a) /\
  ceq (plus_zero a) a = true /\
  (real a <> (-0)%float -> imag a <> (-0)%float -> plus_zero a = a) /\
  lines (output_of (render pred a b))
  = repeat (repeat (glyph (pred (plus_zero a))) 80) 24.
Proof.
  intros Heq Hre Him.
  split; [reflexivity|]. split; [reflexivity|].
  pose proof Heq as Heq'. apply andb_prop in Heq' as [Er Ei].
  destruct positive_divisor_80 as (m80 & e80 & H80).
  destruct positive_divisor_24 as (m24 & e24 & H24).
  assert (H0 : 0 < 80) by lia.
  split; [exact (proj1 (equal_corner_step _ _ 0 _ _ _ H80 Hre Er H0))|].
  split; [exact (proj1 (equal_corner_step _ _ 0 _ _ _ H24 Him Ei H0))|].
  split.
  { intros c Hc. apply in_grid in Hc as (i & j & Hi & Hj & ->).
    apply sample_equal_corners; auto; lia. }
  split.
  { unfold ceq, plus_zero; cbn [real imag].
    now rewrite !eqb_add_zero. }
  split.
  { intros Nr Ni. unfold plus_zero. rewrite !add_zero_r by assumption.
    now destruct a. }
  rewrite (output_of_does _ _ _ (render_does pred a b)), lines_picture.
  apply picture_uniform. intros i j Hi Hj. now apply sample_equal_corners.
Qed.

Lemma equal_finite_corners_witness :
  lines (output_of (render (fun c => (real c <? 2)%float)
                           (Complex 1 (-3)) (Complex 1 (-3))))
  = repeat (repeat (glyph ((fun c => (real c <? 2)%float)
                             (plus_zero (Complex 1 (-3))))) 80) 24.
Proof.
  pose proof (equal_finite_corners_render_one_character
                (fun c => (real c <? 2)%float) (Complex 1 (-3)) (Complex 1 (-3))
                eq_refl eq_refl eq_refl) as (_ & _ & _ & _ & _ & _ & _ & H).
  exact H.
Defined.

(* ================================================================== *)
(** * Further properties of [render.cc] *)

(** ** Printed integers *)

Lemma uint_chars d :
  Forall decimal_char (list_ascii_of_string (NilEmpty.string_of_uint d)).
Proof.
  induction d; simpl; constructor; try assumption;
    unfold decimal_char; simpl; tauto.
Qed.

Lemma print_int_chars z : Forall decimal_char (print_int z).
Proof.
  unfold print_int.
  destruct (Z.to_int z) as [d|d]; simpl.
  - destruct d; try apply uint_chars.
    constructor; [unfold decimal_char; simpl; tauto | constructor].
  - constructor; [unfold decimal_char; simpl; tauto|].
    destruct d; try apply uint_chars.
    constructor; [unfold decimal_char; simpl; tauto | constructor].
Qed.

Lemma print_int_avoids z c : ~ decimal_char c -> ~ In c (print_int z).
Proof.
  intros Hc Hin. apply Hc.
  exact (proj1 (Forall_forall _ _) (print_int_chars z) c Hin).
Qed.

Lemma to_int_not_nil z :
  Z.to_int z <> Decimal.Pos Decimal.Nil /\ Z.to_int z <> Decimal.Neg Decimal.Nil.
Proof.
  destruct z as [|p|p]; simpl; split; try discriminate;
    intro H; injection H as H; now apply Unsigned.to_uint_nonnil in H.
Qed.

Lemma print_int_inj z1 z2 : print_int z1 = print_int z2 -> z1 = z2.
Proof.
  unfold print_int; intro H.
  apply (f_equal string_of_list_ascii) in H.
  rewrite !string_of_list_ascii_of_string in H.
  apply (f_equal NilZero.int_of_string) in H.
  destruct (to_int_not_nil z1), (to_int_not_nil z2).
  rewrite !NilZero.isi in H by assumption.
  injection H as H. now apply DecimalZ.to_int_inj.
Qed.

(** Two texts cut at the first occurrence of a separator. *)
Lemma split_at_separator {A} (s : A) l1 : forall l2 r1 r2,
  ~ In s l1 -> ~ In s l2 ->
  l1 ++ s :: r1 = l2 ++ s :: r2 -> l1 = l2 /\ r1 = r2.
Proof.
  induction l1 as [|x l1 IH]; intros [|y l2] r1 r2 H1 H2 E; simpl in *.
  - injection E as E; now split.
  - injection E as E _; exfalso; apply H2; now left.
  - injection E as E _; exfalso; apply H1; now left.
  - injection E as -> E.
    destruct (IH l2 r1 r2) as [-> ->]; auto.
Qed.

Lemma semicolon_not_decimal : ~ decimal_char ";"%char.
Proof. unfold decimal_char; simpl; intuition discriminate. Qed.

Lemma m_not_decimal : ~ decimal_char "m"%char.
Proof. unfold decimal_char; simpl; intuition discriminate. Qed.

Lemma hash_not_decimal : ~ decimal_char "#"%char.
Proof. unfold decimal_char; simpl; intuition discriminate. Qed.

Lemma newline_not_decimal : ~ decimal_char newline.
Proof. unfold decimal_char; simpl; intuition discriminate. Qed.


(** ** Counting characters *)

Lemma grid_concat a b : grid a b = List.concat (grid_rows a b).
Proof. unfold grid, grid_rows. apply flat_map_concat_map. Qed.

Lemma picture_of_rows pred a b :
  picture pred a b = map (map (fun c => glyph (pred c))) (grid_rows a b).
Proof.
  unfold picture, grid_rows. rewrite map_map.
  apply map_ext; intro j. now rewrite map_map.
Qed.

Lemma count_glyphs (pred : predicate) pts :
  count_occ ascii_dec (map (fun c => glyph (pred c)) pts) "#"%char
  = List.length (filter pred pts).
Proof.
  induction pts as [|c pts IH]; [reflexivity|].
  cbn [map filter]. destruct (pred c); cbn [glyph List.length].
  - rewrite count_occ_cons_eq by reflexivity. now rewrite IH.
  - rewrite count_occ_cons_neq by discriminate. exact IH.
Qed.

Lemma count_unlines x rows :
  x <> newline ->
  count_occ ascii_dec (unlines rows) x = count_occ ascii_dec (List.concat rows) x.
Proof.
  intro Hx. unfold unlines.
  induction rows as [|row rows IH]; [reflexivity|].
  cbn [flat_map List.concat].
  rewrite <- app_assoc, !count_occ_app, IH.
  cbn [app]. rewrite count_occ_cons_neq by congruence. reflexivity.
Qed.

Lemma count_newlines rows :
  Forall (fun row => ~ In newline row) rows ->
  count_occ ascii_dec (unlines rows) newline = List.length rows.
Proof.
  unfold unlines. induction 1 as [|row rows Hrow _ IH]; [reflexivity|].
  cbn [flat_map List.length].
  rewrite <- app_assoc, !count_occ_app, IH.
  apply (count_occ_not_In ascii_dec) in Hrow. rewrite Hrow.
  cbn [app]. rewrite count_occ_cons_eq by reflexivity. reflexivity.
Qed.

Lemma length_unlines w rows :
  Forall (fun row => List.length row = w) rows ->
  List.length (unlines rows) = List.length rows * S w.
Proof.
  unfold unlines. induction 1 as [|row rows Hrow _ IH]; simpl; auto.
  rewrite !length_app, IH, Hrow. simpl. lia.
Qed.

Lemma concat_map_map {A B} (f : A -> B) ll :
  List.concat (map (map f) ll) = map f (List.concat ll).
Proof. symmetry; apply concat_map. Qed.

(** X1. [render] writes 24 * 81 characters, each [#], a space or a newline,
    24 of them newlines; the number of [#] is the number of sample points at
    which the predicate holds, and the spaces are the remaining samples. *)
Theorem render_marks_count_the_samples (pred : predicate) (a b : complex) :
  let out := output_of (render pred a b) in
  List.length out = 24 * 81 /\
  Forall (fun c => c = "#"%char \/ c = " "%char \/ c = newline) out /\
  count_occ ascii_dec out newline = 24 /\
  count_occ ascii_dec out "#"%char = List.length (filter pred (grid a b)) /\
  count_occ ascii_dec out " "%char
  = 80 * 24 - List.length (filter pred (grid a b)).
Proof.
  intro out. unfold out.
  rewrite (output_of_does _ _ _ (render_does pred a b)).
  assert (Hhash : count_occ ascii_dec (unlines (picture pred a b)) "#"%char
                  = List.length (filter pred (grid a b))).
  { rewrite count_unlines by discriminate.
    rewrite picture_of_rows, concat_map_map, <- grid_concat.
    apply count_glyphs. }
  assert (Hnl : count_occ ascii_dec (unlines (picture pred a b)) newline = 24).
  { rewrite count_newlines by apply picture_no_newline. apply length_picture. }
  assert (Hlen : List.length (unlines (picture pred a b)) = 24 * 81).
  { rewrite (length_unlines width) by apply picture_rows.
    now rewrite length_picture. }
  assert (Hall : Forall (fun c => c = "#"%char \/ c = " "%char \/ c = newline)
                        (unlines (picture pred a b))).
  { unfold unlines, picture. apply Forall_forall. intros c Hc.
    apply in_flat_map in Hc as (row & Hrow & Hc).
    apply in_app_or in Hc as [Hc|Hc];
      [ | destruct Hc as [Hc|Hc]; [subst c; now right; right | destruct Hc]].
    apply in_map_iff in Hrow as (j & <- & _).
    apply in_map_iff in Hc as (i & <- & _).
    destruct (pred (sample a b i j)); simpl; auto. }
  repeat split; try assumption.
  (* spaces: whatever is neither a mark nor a newline *)
  assert (Hsum : forall l, Forall (fun c => c = "#"%char \/ c = " "%char \/ c = newline) l ->
     count_occ ascii_dec l "#"%char + count_occ ascii_dec l " "%char
     + count_occ ascii_dec l newline = List.length l).
  { induction 1 as [|c l Hc _ IH]; [reflexivity|].
    cbn [List.length].
    destruct Hc as [ -> | [ -> | -> ] ];
      repeat first [ rewrite count_occ_cons_eq by reflexivity
                   | rewrite count_occ_cons_neq by discriminate ]; lia. }
  specialize (Hsum _ Hall). rewrite Hhash, Hnl, Hlen in Hsum. lia.
Qed.

(** ** The gradient stream *)

Lemma coloured_cell_no_newline c : ~ In newline (coloured_cell c).
Proof.
  rewrite coloured_cell_parts. intro H.
  repeat (apply in_app_or in H as [H|H]);
    try (revert H; apply print_int_avoids, newline_not_decimal);
    simpl in H; intuition discriminate.
Qed.

Lemma coloured_cell_one_hash c :
  count_occ ascii_dec (coloured_cell c) "#"%char = 1.
Proof.
  rewrite coloured_cell_parts, !count_occ_app.
  rewrite !(proj1 (count_occ_not_In ascii_dec (print_int _) "#"%char))
    by apply print_int_avoids, hash_not_decimal.
  reflexivity.
Qed.

Lemma count_flat_map {A} (f : A -> list ascii) x k l :
  (forall y, count_occ ascii_dec (f y) x = k) ->
  count_occ ascii_dec (flat_map f l) x = List.length l * k.
Proof.
  intro H. induction l as [|y l IH]; simpl; auto.
  now rewrite count_occ_app, H, IH.
Qed.

Lemma gradient_no_newline col :
  Forall (fun row => ~ In newline row) (gradient col).
Proof.
  unfold gradient. apply Forall_forall. intros row Hrow.
  apply in_map_iff in Hrow as (j & <- & _).
  intro H. apply in_flat_map in H as (i & _ & H).
  now apply coloured_cell_no_newline in H.
Qed.

Lemma lines_from_rows rows : forall tail,
  Forall (fun row => ~ In newline row) rows ->
  lines_from [] (unlines rows ++ tail) = rows ++ lines_from [] tail.
Proof.
  intros tail H. unfold unlines.
  induction H as [|row rows Hrow _ IH]; simpl; auto.
  rewrite <- !app_assoc. simpl.
  rewrite lines_from_row by assumption. simpl. now rewrite IH.
Qed.

(** X2. The stream of [render_colour] holds exactly 80 * 24 marks [#] and 24
    newlines; its lines are the 24 rows of cells and, unfinished, the reset
    sequence. *)
Theorem render_colour_stream_shape
    (pow : double -> double -> double) (unspecified_int : double -> Z)
    (f : unit_map) (a b : complex) :
  let out := output_of (render_colour pow unspecified_int f a b) in
  let col := fun i j => colour_map pow unspecified_int (f (sample a b i j)) in
  count_occ ascii_dec out "#"%char = 80 * 24 /\
  count_occ ascii_dec out newline = 24 /\
  lines out = gradient col ++ [ESC :: list_ascii_of_string "[m"] /\
  List.length (lines out) = 25.
Proof.
  intros out col. unfold out.
  rewrite (output_of_does _ _ _ (render_colour_does pow unspecified_int f a b)).
  fold col.
  assert (Hl : lines (unlines (gradient col) ++ reset) = gradient col ++ [reset]).
  { unfold lines. rewrite lines_from_rows by apply gradient_no_newline.
    reflexivity. }
  repeat split.
  - rewrite count_occ_app, count_unlines by discriminate.
    unfold gradient. rewrite <- flat_map_concat_map.
    rewrite (count_flat_map _ _ 80).
    + rewrite length_seq. reflexivity.
    + intro j.
      rewrite (count_flat_map _ _ 1) by (intro i; apply coloured_cell_one_hash).
      rewrite length_seq. reflexivity.
  - rewrite count_occ_app, count_newlines by apply gradient_no_newline.
    rewrite length_gradient. reflexivity.
  - exact Hl.
  - rewrite Hl, length_app, length_gradient. reflexivity.
Qed.

(** ** Reading the gradient stream back *)

(** A cell is recognised at the front of any text that starts with it. *)
Lemma coloured_cell_prefix_free c1 c2 r1 r2 :
  coloured_cell c1 ++ r1 = coloured_cell c2 ++ r2 -> c1 = c2 /\ r1 = r2.
Proof.
  rewrite !coloured_cell_parts. rewrite <- !app_assoc. intro H.
  apply app_inv_head in H.
  cbn [app] in H.
  apply split_at_separator in H as [Hr H];
    try (apply print_int_avoids, semicolon_not_decimal).
  apply split_at_separator in H as [Hg H];
    try (apply print_int_avoids, semicolon_not_decimal).
  change (list_ascii_of_string "m#" ++ r1) with ("m"%char :: "#"%char :: r1) in H.
  change (list_ascii_of_string "m#" ++ r2) with ("m"%char :: "#"%char :: r2) in H.
  apply split_at_separator in H as [Hb H];
    try (apply print_int_avoids, m_not_decimal).
  apply print_int_inj in Hr, Hg, Hb.
  split; [destruct c1, c2; simpl in *; congruence | congruence].
Qed.

Lemma row_of_cells_inj (c1 c2 : nat -> Colour) l :
  flat_map (fun i => coloured_cell (c1 i)) l
  = flat_map (fun i => coloured_cell (c2 i)) l ->
  forall i, In i l -> c1 i = c2 i.
Proof.
  induction l as [|x l IH]; intros H i Hi; [destruct Hi|].
  cbn [flat_map] in H.
  apply coloured_cell_prefix_free in H as [Hx H].
  destruct Hi as [<-|Hi]; [exact Hx | now apply IH].
Qed.

Lemma lines_render_colour pow u f a b :
  lines (output_of (render_colour pow u f a b))
  = gradient (fun i j => colour_map pow u (f (sample a b i j))) ++ [reset].
Proof.
  rewrite (output_of_does _ _ _ (render_colour_does pow u f a b)).
  unfold lines. rewrite lines_from_rows by apply gradient_no_newline.
  reflexivity.
Qed.

(** X3. The stream of [render_colour] can be read back: two scalar functions
    give the same stream exactly when [colour_map] gives their values the
    same colour at each of the 80 * 24 sample points. *)
Theorem render_colour_stream_tells_the_colours
    (pow : double -> double -> double) (unspecified_int : double -> Z)
    (f g : unit_map) (a b : complex) :
  output_of (render_colour pow unspecified_int f a b)
  = output_of (render_colour pow unspecified_int g a b) <->
  (forall i j, i < 80 -> j < 24 ->
     colour_map pow unspecified_int (f (sample a b i j))
     = colour_map pow unspecified_int (g (sample a b i j))).
Proof.
  split.
  - intros H i j Hi Hj.
    apply (f_equal lines) in H. rewrite !lines_render_colour in H.
    apply app_inv_tail in H. unfold gradient in H.
    pose proof (proj1 map_ext_in_iff H j) as Hrow.
    specialize (Hrow ltac:(apply in_seq; unfold height; lia)).
    apply (row_of_cells_inj _ _ _ Hrow i).
    apply in_seq; unfold width; lia.
  - intro H.
    rewrite (output_of_does _ _ _ (render_colour_does pow unspecified_int f a b)),
            (output_of_does _ _ _ (render_colour_does pow unspecified_int g a b)).
    f_equal. f_equal. unfold gradient.
    apply map_ext_in; intros j Hj. apply in_seq in Hj.
    rewrite !flat_map_concat_map. f_equal.
    apply map_ext_in; intros i Hi. apply in_seq in Hi.
    rewrite H; [reflexivity | unfold width in Hi; lia | unfold height in Hj; lia].
Qed.

(** ** What the picture tells about the predicate *)

Lemma glyph_inj p q : glyph p = glyph q -> p = q.
Proof. destruct p, q; simpl; congruence. Qed.

(** X5. Two predicates give the same picture exactly when they agree on the
    80 * 24 sample points; [render] looks at a predicate nowhere else. *)
Theorem render_output_tells_the_predicate_on_the_grid
    (p q : predicate) (a b : complex) :
  output_of (render p a b) = output_of (render q a b) <->
  (forall i j, i < 80 -> j < 24 -> p (sample a b i j) = q (sample a b i j)).
Proof.
  split.
  - intros H i j Hi Hj.
    pose proof (char_at_render p a b i j Hi Hj) as Hp.
    pose proof (char_at_render q a b i j Hi Hj) as Hq.
    rewrite H, Hq in Hp. injection Hp as Hp. symmetry. now apply glyph_inj.
  - intro H.
    rewrite (output_of_does _ _ _ (render_does p a b)),
            (output_of_does _ _ _ (render_does q a b)).
    f_equal. unfold picture.
    apply map_ext_in; intros j Hj. apply in_seq in Hj.
    apply map_ext_in; intros i Hi. apply in_seq in Hi.
    rewrite H; [reflexivity | unfold width in Hi; lia | unfold height in Hj; lia].
Qed.

(** X6. The grid is aligned with the axes: a predicate of the real part alone
    gives 24 identical lines. *)
Theorem real_predicate_gives_identical_lines (pred : predicate) (a b : complex) :
  (forall c c', real c = real c' -> pred c = pred c') ->
  lines (output_of (render pred a b))
  = repeat (map (fun i => glyph (pred (sample a b i 0))) (seq 0 80)) 24.
Proof.
  intro H.
  rewrite (output_of_does _ _ _ (render_does pred a b)), lines_picture.
  unfold picture.
  apply (map_const_seq _ _ height 0). intro j.
  apply map_ext; intro i. f_equal. apply H. reflexivity.
Qed.

Lemma real_predicate_witness :
  lines (output_of (render (fun c => (real c <? 1)%float) (Complex 0 0) (Complex 2 2)))
  = repeat (map (fun i => glyph ((fun c => (real c <? 1)%float)
                                   (sample (Complex 0 0) (Complex 2 2) i 0)))
                (seq 0 80)) 24.
Proof.
  apply (real_predicate_gives_identical_lines (fun c => (real c <? 1)%float)).
  intros c c' H. now rewrite H.
Defined.

(** X7. A predicate of the imaginary part alone gives lines of 80 identical
    characters. *)
Theorem imag_predicate_gives_uniform_lines (pred : predicate) (a b : complex) :
  (forall c c', imag c = imag c' -> pred c = pred c') ->
  lines (output_of (render pred a b))
  = map (fun j => repeat (glyph (pred (sample a b 0 j))) 80) (seq 0 24).
Proof.
  intro H.
  rewrite (output_of_does _ _ _ (render_does pred a b)), lines_picture.
  unfold picture.
  apply map_ext; intro j.
  apply (map_const_seq _ _ width 0). intro i.
  f_equal. apply H. reflexivity.
Qed.

Lemma imag_predicate_witness :
  lines (output_of (render (fun c => (imag c <? 1)%float) (Complex 0 0) (Complex 2 2)))
  = map (fun j => repeat (glyph ((fun c => (imag c <? 1)%float)
                                   (sample (Complex 0 0) (Complex 2 2) 0 j))) 80)
        (seq 0 24).
Proof.
  apply (imag_predicate_gives_uniform_lines (fun c => (imag c <? 1)%float)).
  intros c c' H. now rewrite H.
Defined.

(** ** Doubles: NaN and overflow *)

Section NotANumber.

Local Open Scope float_scope.

Lemma nan_spec : Prim2SF nan = S754_nan.
Proof. reflexivity. Qed.

Lemma SF_is_nan x : Prim2SF x = S754_nan -> x = nan.
Proof. intro H. apply Prim2SF_inj. now rewrite H. Qed.

Lemma add_nan_l y : nan + y = nan.
Proof. apply SF_is_nan. rewrite FloatAxioms.add_spec, nan_spec. reflexivity. Qed.

Lemma add_nan_r x : x + nan = nan.
Proof.
  apply SF_is_nan. rewrite FloatAxioms.add_spec, nan_spec.
  now destruct (Prim2SF x).
Qed.

Lemma sub_nan_l y : nan - y = nan.
Proof. apply SF_is_nan. rewrite FloatAxioms.sub_spec, nan_spec. reflexivity. Qed.

Lemma sub_nan_r x : x - nan = nan.
Proof.
  apply SF_is_nan. rewrite FloatAxioms.sub_spec, nan_spec.
  now destruct (Prim2SF x).
Qed.

Lemma mul_nan_l y : nan * y = nan.
Proof. apply SF_is_nan. rewrite FloatAxioms.mul_spec, nan_spec. reflexivity. Qed.

Lemma mul_nan_r x : x * nan = nan.
Proof.
  apply SF_is_nan. rewrite FloatAxioms.mul_spec, nan_spec.
  now destruct (Prim2SF x).
Qed.

Lemma div_nan_l y : nan / y = nan.
Proof. apply SF_is_nan. rewrite FloatAxioms.div_spec, nan_spec. reflexivity. Qed.

Lemma div_nan_r x : x / nan = nan.
Proof.
  apply SF_is_nan. rewrite FloatAxioms.div_spec, nan_spec.
  now destruct (Prim2SF x).
Qed.

Lemma SF_step_not_finite n s x :
  SFcountb n = true -> SFfiniteb s = false ->
  SFfiniteb (SF64add x (SF64mul n s)) = false.
Proof.
  destruct n as [[|]| | |[|] mn en]; try discriminate; intros _;
    destruct s as [ss|ss| |ss ms es]; try discriminate; intros _;
    destruct x as [sx|sx| |sx mx ex]; try reflexivity;
    destruct sx, ss; reflexivity.
Qed.

Lemma SF_first_step_is_zero s :
  SFfiniteb s = true -> SFzerob (SF64mul (S754_zero false) s) = true.
Proof. destruct s; try discriminate; reflexivity. Qed.

Lemma SFeqb_refl_finite x : SFfiniteb x = true -> SFeqb x x = true.
Proof.
  destruct x as [sx|sx| |sx mx ex]; try discriminate; try reflexivity.
  intros _. unfold SFeqb, SFcompare.
  rewrite Z.compare_refl.
  change (Pos.compare_cont Eq mx mx) with (Pos.compare mx mx).
  rewrite Pos.compare_refl. now destruct sx.
Qed.

Lemma SFeqb_add_a_zero x z :
  SFfiniteb x = true -> SFzerob z = true -> SFeqb (SF64add x z) x = true.
Proof.
  destruct z as [sz| | |]; try discriminate. intros Hx _.
  destruct x as [sx|sx| |sx mx ex]; try discriminate.
  - now destruct sx, sz.
  - change (SF64add (S754_finite sx mx ex) (S754_zero sz)) with (S754_finite sx mx ex).
    now apply SFeqb_refl_finite.
Qed.

End NotANumber.

Local Open Scope float_scope.

Lemma step_not_finite x s i :
  i < 80 -> finiteb s = false -> finiteb (x + unsigned_to_double i * s) = false.
Proof.
  intros Hi Hs. unfold finiteb.
  rewrite FloatAxioms.add_spec, FloatAxioms.mul_spec.
  apply SF_step_not_finite; [now apply unsigned_to_double_count | exact Hs].
Qed.

Lemma first_step_stays x s :
  finiteb x = true -> finiteb s = true ->
  (x + unsigned_to_double 0 * s =? x) = true.
Proof.
  intros Hx Hs.
  rewrite FloatAxioms.eqb_spec, FloatAxioms.add_spec, FloatAxioms.mul_spec.
  apply SFeqb_add_a_zero; [exact Hx|].
  change (Prim2SF (unsigned_to_double 0)) with (S754_zero false).
  now apply SF_first_step_is_zero.
Qed.

Local Close Scope float_scope.

(** ** Corners at the edge of the doubles *)

(** X8. A NaN in the real part of either corner makes the real part of every
    sample NaN. *)
Theorem nan_corner_gives_nan_samples (pred : predicate) (a b : complex) :
  real a = nan \/ real b = nan ->
  Forall (fun c => real c = nan) (trace_of (render pred a b)).
Proof.
  intro H. rewrite (trace_of_does _ _ _ (render_does pred a b)).
  apply Forall_forall. intros c Hc.
  apply in_grid in Hc as (i & j & _ & _ & ->).
  unfold sample, cadd; cbn [real imag].
  destruct H as [-> | ->].
  - apply add_nan_l.
  - now rewrite sub_nan_l, div_nan_l, mul_nan_r, add_nan_r.
Qed.

Lemma nan_corner_witness :
  Forall (fun c => real c = nan)
         (trace_of (render (fun _ => true) (Complex nan 0) (Complex 1 1))).
Proof.
  apply nan_corner_gives_nan_samples. left. reflexivity.
Defined.

(** X9. When the real scale factor is not finite (the width [B.re - A.re]
    overflows, or a corner is infinite or NaN), no sample has a finite real
    part. *)
Theorem overflowing_width_gives_no_finite_sample (pred : predicate) (a b : complex) :
  finiteb ((real b - real a) / 80)%float = false ->
  Forall (fun c => finiteb (real c) = false) (trace_of (render pred a b)).
Proof.
  intro H. rewrite (trace_of_does _ _ _ (render_does pred a b)).
  apply Forall_forall. intros c Hc.
  apply in_grid in Hc as (i & j & Hi & _ & ->).
  unfold sample, cadd; cbn [real imag].
  apply step_not_finite; [lia | exact H].
Qed.

Lemma overflowing_width_witness :
  finiteb (-0x1.8p1023)%float = true /\ finiteb 0x1.8p1023%float = true /\
  Forall (fun c => finiteb (real c) = false)
         (trace_of (render (fun _ => true)
                           (Complex (-0x1.8p1023) 0) (Complex 0x1.8p1023 1))).
Proof.
  split; [reflexivity|]. split; [reflexivity|].
  apply overflowing_width_gives_no_finite_sample. reflexivity.
Defined.

(** X10. With a finite corner A and finite scale factors, the first point
    [render] asks about is A (equal to it as doubles compare). *)
Theorem first_sample_is_corner_a (pred : predicate) (a b : complex) :
  finiteb (real a) = true -> finiteb (imag a) = true ->
  finiteb ((real b - real a) / 80)%float = true ->
  finiteb ((imag b - imag a) / 24)%float = true ->
  exists c, hd_error (trace_of (render pred a b)) = Some c /\ ceq c a = true.
Proof.
  intros Hra Hia Hsr Hsi.
  rewrite (trace_of_does _ _ _ (render_does pred a b)).
  exists (sample a b 0 0). split; [reflexivity|].
  unfold ceq, sample, cadd; cbn [real imag].
  now rewrite !first_step_stays.
Qed.

Lemma first_sample_witness :
  exists c, hd_error (trace_of (render (fun _ => true) (Complex (-2) 1) (Complex 1 (-1))))
            = Some c /\ ceq c (Complex (-2) 1) = true.
Proof.
  apply first_sample_is_corner_a; reflexivity.
Defined.

(** ** The colour of NaN *)

(** X11. For a NaN input every channel of [colour_map] is NaN times 255 = NaN,
    whatever [pow] returns: the language fixes none of the three integers. *)
Theorem colour_map_of_nan
    (pow : double -> double -> double) (unspecified_int : double -> Z) :
  red pow nan = nan /\ green pow nan = nan /\ blue pow nan = nan /\
  colour_map pow unspecified_int nan
  = Colour.make (as_int (unspecified_int nan)) (as_int (unspecified_int nan))
                (as_int (unspecified_int nan)).
Proof.
  assert (Hr : red pow nan = nan).
  { unfold red. rewrite mul_nan_r, sub_nan_r, add_nan_l. apply div_nan_l. }
  assert (Hg : green pow nan = nan).
  { unfold green. rewrite mul_nan_r, sub_nan_r.
    now rewrite !add_nan_l, ?sub_nan_l, ?add_nan_l, ?sub_nan_l, ?add_nan_l. }
  assert (Hb : blue pow nan = nan).
  { unfold blue. rewrite (mul_nan_r 3.54%float), add_nan_r.
    rewrite ?sub_nan_l, ?add_nan_l, ?sub_nan_l, ?add_nan_l. apply div_nan_r. }
  repeat split; try assumption.
  rewrite colour_map_channels, Hr, Hg, Hb, mul_nan_l.
  reflexivity.
Qed.
